(** * The availability-zone cache of pkg/providers/v1/zones.go

    A shallow embedding of [zoneCache] and its three methods,
    [getZoneDetailsByNames], [shouldPopulateCache] and [populate], followed
    by the properties of the cache that its specification states.

    The Go methods mutate the receiver, call the EC2 client and write to
    klog.  They are embedded as computations of a small state monad over a
    [world]: the cache, the EC2 client behind [z.cloud] and the trace of the
    observable events (mutex operations, EC2 calls, log lines). *)

From stdpp Require Import gmap strings list fin_maps.

Open Scope string_scope.
Open Scope list_scope.

(** ** Data *)

(** [type zoneDetails struct { name, id, zoneType string }] *)
Record zoneDetails := mkZoneDetails {
  name : string;
  id : string;
  zoneType : string
}.

(** The three fields of [ec2.AvailabilityZone] that the cache reads.  They
    are [*string] in the SDK: [None] is the nil pointer.  The elements of a
    listing are themselves taken to be non-nil, as the SDK produces them. *)
Record AvailabilityZone := mkAvailabilityZone {
  ZoneName : option string;
  ZoneId : option string;
  ZoneType : option string
}.

(** [aws.StringValue]: the pointed-to string, or the empty string for nil. *)
Definition StringValue (p : option string) : string :=
  match p with
  | Some s => s
  | None => ""
  end.

(** Go errors.  [ec2_error] is an error value produced by the EC2 client;
    [Errorf format e] is [fmt.Errorf(format, e)] with its single argument. *)
Inductive error :=
  | ec2_error (msg : string)
  | Errorf (format : string) (arg : error).

(** A Go [map[string]V]: [None] is the nil map, which can be read and
    measured but not assigned to. *)
Definition gomap (V : Type) : Type := option (gmap string V).

Definition contents {V} (m : gomap V) : gmap string V :=
  match m with
  | Some g => g
  | None => ∅
  end.

(** [len(m)] *)
Definition go_len {V} (m : gomap V) : nat := size (contents m).

(** [v, ok := m[k]] *)
Definition go_index {V} (m : gomap V) (k : string) : option V := contents m !! k.

(** The EC2 client behind [z.cloud.ec2], as far as the cache uses it: the
    answer [DescribeAvailabilityZones] gives to its n-th call (a listing and
    an error, as the Go method returns them) and the number of calls made. *)
Record Cloud := mkCloud {
  ec2 : nat -> list AvailabilityZone * option error;
  ec2_calls : nat
}.

(** [type zoneCache struct { cloud; mutex; zoneNameToDetails }].  The mutex
    is [true] while it is held. *)
Record zoneCache := mkZoneCache {
  cloud : Cloud;
  mutex : bool;
  zoneNameToDetails : gomap zoneDetails
}.

(** What a run lets an observer see, in order. *)
Inductive event :=
  | EvLock
  | EvUnlock
  | EvDescribeAvailabilityZones
  | EvInfof (format arg : string)
  | EvWarningf (format arg : string).

Record world := mkWorld {
  z : zoneCache;
  trace : list event
}.

(** The ways a call can fail to return. *)
Inductive fault :=
  | assignment_to_nil_map
  | lock_of_locked_mutex
  | unlock_of_unlocked_mutex.

Inductive outcome (A : Type) :=
  | Return (a : A) (w : world)
  | Fault (f : fault).
Arguments Return {A} a w.
Arguments Fault {A} f.

(** ** The monad *)

Definition M (A : Type) : Type := world -> outcome A.

#[global] Instance M_mret : MRet M := fun A a w => Return a w.

#[global] Instance M_bind : MBind M := fun A B k c w =>
  match c w with
  | Return a w' => k a w'
  | Fault f => Fault f
  end.

(** [defer d] before a body: [d] runs when the body returns, and the
    body's results are the call's. *)
Definition defer {A} (d : M unit) (body : M A) : M A :=
  r ← body; d ;; mret r.

(** ** Primitive operations *)

Definition emit (e : event) (w : world) : world :=
  {| z := z w; trace := trace w ++ [e] |}.

Definition with_mutex (b : bool) (w : world) : world :=
  {| z := {| cloud := cloud (z w); mutex := b;
             zoneNameToDetails := zoneNameToDetails (z w) |};
     trace := trace w |}.

Definition with_map (m : gomap zoneDetails) (w : world) : world :=
  {| z := {| cloud := cloud (z w); mutex := mutex (z w);
             zoneNameToDetails := m |};
     trace := trace w |}.

Definition with_call (w : world) : world :=
  {| z := {| cloud := {| ec2 := ec2 (cloud (z w));
                         ec2_calls := S (ec2_calls (cloud (z w))) |};
             mutex := mutex (z w);
             zoneNameToDetails := zoneNameToDetails (z w) |};
     trace := trace w |}.

(** [z.mutex.Lock()]: on a held mutex the caller never proceeds. *)
Definition Lock : M unit := fun w =>
  if mutex (z w) then Fault lock_of_locked_mutex
  else Return tt (emit EvLock (with_mutex true w)).

(** [z.mutex.Unlock()]: a fatal error on a mutex that is not held. *)
Definition Unlock : M unit := fun w =>
  if mutex (z w) then Return tt (emit EvUnlock (with_mutex false w))
  else Fault unlock_of_unlocked_mutex.

(** [z.cloud.ec2.DescribeAvailabilityZones(azRequest)] *)
Definition DescribeAvailabilityZones : M (list AvailabilityZone * option error) :=
  fun w =>
    Return (ec2 (cloud (z w)) (ec2_calls (cloud (z w))))
           (emit EvDescribeAvailabilityZones (with_call w)).

(** [klog.Infof(format, arg)] and [klog.Warningf(format, arg)] *)
Definition Infof (format arg : string) : M unit :=
  fun w => Return tt (emit (EvInfof format arg) w).
Definition Warningf (format arg : string) : M unit :=
  fun w => Return tt (emit (EvWarningf format arg) w).

(** Reading the field [z.zoneNameToDetails]. *)
Definition read_map : M (gomap zoneDetails) :=
  fun w => Return (zoneNameToDetails (z w)) w.

(** [z.zoneNameToDetails = m] *)
Definition write_map (m : gomap zoneDetails) : M unit :=
  fun w => Return tt (with_map m w).

(** [z.zoneNameToDetails[k] = v]: a panic on the nil map. *)
Definition assign (k : string) (v : zoneDetails) : M unit := fun w =>
  match zoneNameToDetails (z w) with
  | Some g => Return tt (with_map (Some (<[k:=v]> g)) w)
  | None => Fault assignment_to_nil_map
  end.

(** ** The methods of zoneCache *)

(** The loop of [shouldPopulateCache]: [true] at the first requested zone
    that the map does not hold. *)
Fixpoint shouldPopulateCache_range (zoneNames : list string) : M bool :=
  match zoneNames with
  | [] => mret false
  | zone :: rest =>
      m ← read_map;
      match go_index m zone with
      | Some _ => shouldPopulateCache_range rest
      | None => Infof "AZ %s not found in zone cache." zone ;; mret true
      end
  end.

Definition shouldPopulateCache (zoneNames : list string) : M bool :=
  m ← read_map;
  if (go_len m =? 0)%nat then mret true
  else shouldPopulateCache_range zoneNames.

(** The record [populate] stores for a listed zone, and its key. *)
Definition details_of (zone : AvailabilityZone) : zoneDetails :=
  let name := StringValue (ZoneName zone) in
  {| name := name;
     id := StringValue (ZoneId zone);
     zoneType := StringValue (ZoneType zone) |}.

(** The loop of [populate] over the listing. *)
Fixpoint populate_range (zones : list AvailabilityZone) : M unit :=
  match zones with
  | [] => mret tt
  | zone :: rest =>
      let name := StringValue (ZoneName zone) in
      assign name (details_of zone) ;;
      populate_range rest
  end.

Definition populate : M (option error) :=
  r ← DescribeAvailabilityZones;
  match r with
  | (_, Some err) =>
      mret (Some (Errorf "error describe availability zones: %q" err))
  | (zones, None) =>
      m ← read_map;
      (if (go_len m =? 0)%nat then write_map (Some ∅) else mret tt) ;;
      populate_range zones ;;
      mret None
  end.

(** The loop of [getZoneDetailsByNames] that fills [requestedZoneDetails]. *)
Fixpoint requested_range (zoneNames : list string)
    (requestedZoneDetails : gmap string zoneDetails) : M (gmap string zoneDetails) :=
  match zoneNames with
  | [] => mret requestedZoneDetails
  | zone :: rest =>
      m ← read_map;
      match go_index m zone with
      | Some zoneDetails => requested_range rest (<[zone:=zoneDetails]> requestedZoneDetails)
      | None =>
          Warningf "Could not find zone %s" zone ;;
          requested_range rest requestedZoneDetails
      end
  end.

(** The end of [getZoneDetailsByNames], from [requestedZoneDetails := ...]. *)
Definition collect_requested (zoneNames : list string)
    : M (gomap zoneDetails * option error) :=
  requestedZoneDetails ← requested_range zoneNames ∅;
  mret (Some requestedZoneDetails, None).

Definition getZoneDetailsByNames (zoneNames : list string)
    : M (gomap zoneDetails * option error) :=
  if (length zoneNames =? 0)%nat then mret (Some ∅, None)
  else
    Lock ;;
    defer Unlock (
      b ← shouldPopulateCache zoneNames;
      if (b : bool) then
        err ← populate;
        match err with
        | Some e => mret (None, Some e)
        | None => collect_requested zoneNames
        end
      else collect_requested zoneNames).

(** ** Running the cache *)

(** A cache before its first lookup, its fields at Go's zero values: the
    nil map and a free mutex, in front of an EC2 client that has not been
    called. *)
Definition new_world (responses : nat -> list AvailabilityZone * option error) : world :=
  {| z := {| cloud := {| ec2 := responses; ec2_calls := 0 |};
             mutex := false;
             zoneNameToDetails := None |};
     trace := [] |}.

(** A sequence of lookups, one after the other. *)
Fixpoint lookups (requests : list (list string)) (w : world) : option world :=
  match requests with
  | [] => Some w
  | zoneNames :: rest =>
      match getZoneDetailsByNames zoneNames w with
      | Return _ w' => lookups rest w'
      | Fault _ => None
      end
  end.

Definition entries (w : world) : gmap string zoneDetails :=
  contents (zoneNameToDetails (z w)).

Definition calls (w : world) : nat := ec2_calls (cloud (z w)).

(** ** Pure readings of the three loops *)

(** The map after the loop of [populate] has stored a listing into [g]. *)
Fixpoint store_all (zones : list AvailabilityZone)
    (g : gmap string zoneDetails) : gmap string zoneDetails :=
  match zones with
  | [] => g
  | zone :: rest =>
      store_all rest (<[StringValue (ZoneName zone) := details_of zone]> g)
  end.

(** The records of one listing alone. *)
Definition records_of (zones : list AvailabilityZone) : gmap string zoneDetails :=
  store_all zones ∅.

(** The first requested zone that [g] does not hold. *)
Fixpoint first_missing (g : gmap string zoneDetails)
    (zoneNames : list string) : option string :=
  match zoneNames with
  | [] => None
  | zone :: rest =>
      match g !! zone with
      | Some _ => first_missing g rest
      | None => Some zone
      end
  end.

(** Whether [shouldPopulateCache] asks for a population. *)
Definition needs_population (g : gmap string zoneDetails)
    (zoneNames : list string) : bool :=
  (size g =? 0)%nat || bool_decide (is_Some (first_missing g zoneNames)).

(** The requested zones that [g] holds, added to [acc]. *)
Fixpoint found (g : gmap string zoneDetails) (zoneNames : list string)
    (acc : gmap string zoneDetails) : gmap string zoneDetails :=
  match zoneNames with
  | [] => acc
  | zone :: rest =>
      match g !! zone with
      | Some d => found g rest (<[zone:=d]> acc)
      | None => found g rest acc
      end
  end.

(** The warnings for the requested zones that [g] does not hold. *)
Fixpoint not_found (g : gmap string zoneDetails)
    (zoneNames : list string) : list event :=
  match zoneNames with
  | [] => []
  | zone :: rest =>
      match g !! zone with
      | Some _ => not_found g rest
      | None => EvWarningf "Could not find zone %s" zone :: not_found g rest
      end
  end.

Definition emits (es : list event) (w : world) : world :=
  {| z := z w; trace := trace w ++ es |}.

(** The two states of the cache's life cycle. *)
Inductive cache_state := Empty | Populated.

Definition state_of (w : world) : cache_state :=
  if (go_len (zoneNameToDetails (z w)) =? 0)%nat then Empty else Populated.

(** The listing of the latest call, among the first [n], that succeeded. *)
Fixpoint last_success (responses : nat -> list AvailabilityZone * option error)
    (n : nat) : option (list AvailabilityZone) :=
  match n with
  | 0 => None
  | S n' =>
      match responses n' with
      | (zones, None) => Some zones
      | (_, Some _) => last_success responses n'
      end
  end.

Definition last_listing (w : world) : option (list AvailabilityZone) :=
  last_success (ec2 (cloud (z w))) (calls w).

(** The successful listings among the first [n] calls, stored one after
    the other. *)
Fixpoint merged (responses : nat -> list AvailabilityZone * option error)
    (n : nat) : gmap string zoneDetails :=
  match n with
  | 0 => ∅
  | S n' =>
      match responses n' with
      | (zones, None) => store_all zones (merged responses n')
      | (_, Some _) => merged responses n'
      end
  end.

(** Every key is the name of its record. *)
Definition keyed_by_name (g : gmap string zoneDetails) : Prop :=
  map_Forall (fun k d => name d = k) g.

(** The state in which [populate] leaves the EC2 client and the trace. *)
Definition described (w : world) : world :=
  emit EvDescribeAvailabilityZones (with_call w).

(** The state in which a call that took the mutex leaves it. *)
Definition locked (w : world) : world := emit EvLock (with_mutex true w).
Definition unlocked (w : world) : world := emit EvUnlock (with_mutex false w).

(** The invariant of the cache: the mutex is free between calls, and the
    map is the successful listings so far stored one after the other, each
    key the name of its record. *)
Definition cache_invariant (responses : nat -> list AvailabilityZone * option error)
    (w : world) : Prop :=
  mutex (z w) = false /\
  ec2 (cloud (z w)) = responses /\
  entries w = merged responses (calls w) /\
  keyed_by_name (entries w).

(** ** Fixtures *)

Definition zone_a : AvailabilityZone :=
  {| ZoneName := Some "us-east-1a"; ZoneId := Some "use1-az1";
     ZoneType := Some "availability-zone" |}.
Definition zone_b : AvailabilityZone :=
  {| ZoneName := Some "us-east-1b"; ZoneId := Some "use1-az2";
     ZoneType := Some "availability-zone" |}.
Definition zone_c : AvailabilityZone :=
  {| ZoneName := Some "us-east-1-bos-1a"; ZoneId := Some "use1-bos1-az1";
     ZoneType := Some "local-zone" |}.

(** An EC2 client that lists [zone_a] and [zone_b], always. *)
Definition lists_a_b (n : nat) : list AvailabilityZone * option error :=
  ([zone_a; zone_b], None).

(** An EC2 client that lists both zones once and only [zone_a] afterwards. *)
Definition lists_a_b_then_a (n : nat) : list AvailabilityZone * option error :=
  match n with
  | 0 => ([zone_a; zone_b], None)
  | S _ => ([zone_a], None)
  end.

(** An EC2 client that lists [zone_a] once, and [zone_c] beside it from
    then on. *)
Definition lists_a_then_a_c (n : nat) : list AvailabilityZone * option error :=
  match n with
  | 0 => ([zone_a], None)
  | S _ => ([zone_a; zone_c], None)
  end.

(** An EC2 client whose every call fails. *)
Definition unavailable (n : nat) : list AvailabilityZone * option error :=
  ([], Some (ec2_error "RequestLimitExceeded")).

(** An EC2 client that lists no zone at all. *)
Definition lists_nothing (n : nat) : list AvailabilityZone * option error :=
  ([], None).

(** A cache that already holds [zone_a] and [zone_b]. *)
Definition warm_world : world :=
  {| z := {| cloud := {| ec2 := lists_a_b; ec2_calls := 1 |};
             mutex := false;
             zoneNameToDetails := Some (records_of [zone_a; zone_b]) |};
     trace := [] |}.

(** A cache that holds [zone_a] and [zone_b] in front of a failing client. *)
Definition warm_world_unavailable : world :=
  {| z := {| cloud := {| ec2 := unavailable; ec2_calls := 1 |};
             mutex := false;
             zoneNameToDetails := Some (records_of [zone_a; zone_b]) |};
     trace := [] |}.

(** ** Readings of a listing, a request and a trace *)

(** The zone of a listing that [populate] leaves under the key [k]: the
    last one the loop meets whose name is [k]. *)
Definition listed (k : string) (zones : list AvailabilityZone) : option AvailabilityZone :=
  last (List.filter (fun zone => bool_decide (StringValue (ZoneName zone) = k)) zones).

(** Whether the map [g] lacks the key [k]. *)
Definition absent (g : gmap string zoneDetails) (k : string) : bool :=
  match g !! k with
  | Some _ => false
  | None => true
  end.

Definition is_describe (e : event) : bool :=
  match e with
  | EvDescribeAvailabilityZones => true
  | _ => false
  end.

Definition is_warning (e : event) : bool :=
  match e with
  | EvWarningf _ _ => true
  | _ => false
  end.

(** Whether a lookup of [zoneNames] in the state [w] calls the EC2 client:
    the request is not empty and [shouldPopulateCache] says so. *)
Definition populates (zoneNames : list string) (w : world) : bool :=
  match zoneNames with
  | [] => false
  | _ :: _ => needs_population (entries w) zoneNames
  end.

(** An EC2 client that fails once and lists [zone_a] and [zone_b] from then
    on. *)
Definition unavailable_then_lists_a_b (n : nat) : list AvailabilityZone * option error :=
  match n with
  | 0 => ([], Some (ec2_error "RequestLimitExceeded"))
  | S _ => ([zone_a; zone_b], None)
  end.

(** An EC2 client that lists [zone_a] twice in one listing, under two ids. *)
Definition lists_a_twice (n : nat) : list AvailabilityZone * option error :=
  ([zone_a;
    {| ZoneName := Some "us-east-1a"; ZoneId := Some "use1-az6";
       ZoneType := Some "availability-zone" |}], None).

(** * Properties *)

(** ** The loops *)

Lemma emits_nil w : emits [] w = w.
Proof. destruct w as [c t]. unfold emits. simpl. by rewrite app_nil_r. Qed.

Lemma emits_cons e es w : emits (e :: es) w = emits es (emit e w).
Proof. unfold emits, emit. simpl. by rewrite <- app_assoc. Qed.

Lemma entries_empty_len w : (go_len (zoneNameToDetails (z w)) =? 0)%nat = true <-> entries w = ∅.
Proof.
  unfold go_len, entries. rewrite Nat.eqb_eq. apply map_size_empty_iff.
Qed.

Lemma shouldPopulateCache_range_exec zoneNames w :
  shouldPopulateCache_range zoneNames w =
    match first_missing (entries w) zoneNames with
    | Some zone => Return true (emit (EvInfof "AZ %s not found in zone cache." zone) w)
    | None => Return false w
    end.
Proof.
  induction zoneNames as [|zone rest IH]; [done|].
  simpl. unfold mbind, M_bind, read_map, go_index. fold (entries w).
  destruct (entries w !! zone); [apply IH | done].
Qed.

Lemma shouldPopulateCache_exec zoneNames w :
  shouldPopulateCache zoneNames w =
    if (size (entries w) =? 0)%nat then Return true w
    else match first_missing (entries w) zoneNames with
         | Some zone => Return true (emit (EvInfof "AZ %s not found in zone cache." zone) w)
         | None => Return false w
         end.
Proof.
  unfold shouldPopulateCache, mbind, M_bind, read_map, go_len. fold (entries w).
  destruct (size (entries w) =? 0)%nat; [done|].
  apply shouldPopulateCache_range_exec.
Qed.

Lemma populate_range_exec zones w g :
  zoneNameToDetails (z w) = Some g ->
  populate_range zones w = Return tt (with_map (Some (store_all zones g)) w).
Proof.
  revert w g. induction zones as [|zone rest IH]; intros w g Hg.
  - simpl. unfold mret, M_mret. f_equal.
    destruct w as [[c m zm] t]. simpl in *. by subst.
  - simpl. unfold mbind, M_bind, assign. rewrite Hg.
    by rewrite (IH _ (<[StringValue (ZoneName zone) := details_of zone]> g)).
Qed.

Lemma requested_range_exec zoneNames acc w :
  requested_range zoneNames acc w =
    Return (found (entries w) zoneNames acc) (emits (not_found (entries w) zoneNames) w).
Proof.
  revert acc w. induction zoneNames as [|zone rest IH]; intros acc w.
  - simpl. by rewrite emits_nil.
  - simpl. unfold mbind, M_bind, read_map, go_index. fold (entries w).
    destruct (entries w !! zone) as [d|].
    + apply IH.
    + unfold Warningf. rewrite IH, emits_cons. done.
Qed.

(** ** The methods, call by call *)

Lemma populate_exec w :
  populate w =
    match ec2 (cloud (z w)) (calls w) with
    | (_, Some err) =>
        Return (Some (Errorf "error describe availability zones: %q" err)) (described w)
    | (zones, None) =>
        Return None (with_map (Some (store_all zones (entries w))) (described w))
    end.
Proof.
  unfold populate, mbind, M_bind, DescribeAvailabilityZones, calls.
  fold (described w).
  destruct (ec2 (cloud (z w)) (ec2_calls (cloud (z w)))) as [zones [err|]]; [done|].
  unfold read_map.
  change (zoneNameToDetails (z (described w))) with (zoneNameToDetails (z w)).
  destruct (go_len (zoneNameToDetails (z w)) =? 0)%nat eqn:Hlen.
  - apply entries_empty_len in Hlen. rewrite Hlen.
    unfold write_map.
    by rewrite (populate_range_exec zones _ ∅).
  - unfold entries. destruct (zoneNameToDetails (z w)) as [g|] eqn:Hg.
    + unfold mret at 1, M_mret at 1.
      by rewrite (populate_range_exec zones _ g).
    + unfold go_len in Hlen. simpl in Hlen. by rewrite map_size_empty in Hlen.
Qed.

Lemma collect_requested_exec zoneNames w :
  collect_requested zoneNames w =
    Return (Some (found (entries w) zoneNames ∅), None)
           (emits (not_found (entries w) zoneNames) w).
Proof.
  unfold collect_requested, mbind, M_bind. by rewrite requested_range_exec.
Qed.

(** The steps every lookup of a non-empty request starts with: the test of
    the length, the mutex, and the decision to populate. *)
Ltac take_mutex zoneNames w Hfree :=
  unfold getZoneDetailsByNames;
  destruct zoneNames as [|?zone ?rest]; [done|];
  change (length (_ :: _) =? 0)%nat with false; cbv iota;
  unfold mbind at 1, M_bind at 1, Lock; rewrite Hfree; fold (locked w);
  unfold defer, mbind at 1, M_bind at 1;
  unfold mbind at 1, M_bind at 1; rewrite shouldPopulateCache_exec;
  change (entries (locked w)) with (entries w).

(** A lookup that needs no population. *)
Lemma getZoneDetailsByNames_hit zoneNames w :
  zoneNames <> [] -> mutex (z w) = false ->
  needs_population (entries w) zoneNames = false ->
  getZoneDetailsByNames zoneNames w =
    Return (Some (found (entries w) zoneNames ∅), None)
           (unlocked (emits (not_found (entries w) zoneNames) (locked w))).
Proof.
  intros Hne Hfree Hneeds.
  unfold needs_population in Hneeds. apply orb_false_elim in Hneeds as [Hsize Hmiss].
  apply bool_decide_eq_false in Hmiss.
  take_mutex zoneNames w Hfree. rewrite Hsize.
  destruct (first_missing (entries w) (zone :: rest)) as [k|] eqn:Hfirst.
  { exfalso. apply Hmiss. by eexists. }
  rewrite collect_requested_exec. done.
Qed.

(** A lookup that populates, when the EC2 call fails. *)
Lemma getZoneDetailsByNames_miss_error zoneNames w zones err :
  zoneNames <> [] -> mutex (z w) = false ->
  needs_population (entries w) zoneNames = true ->
  ec2 (cloud (z w)) (calls w) = (zones, Some err) ->
  exists es,
    getZoneDetailsByNames zoneNames w =
      Return (None, Some (Errorf "error describe availability zones: %q" err))
             (unlocked (described (emits es (locked w))))
    /\ Forall (fun e => exists arg, e = EvInfof "AZ %s not found in zone cache." arg) es.
Proof.
  intros Hne Hfree Hneeds Hec2.
  take_mutex zoneNames w Hfree.
  unfold needs_population in Hneeds.
  destruct (size (entries w) =? 0)%nat eqn:Hsize.
  - exists []. rewrite emits_nil. split; [|constructor].
    unfold mbind at 1, M_bind at 1. rewrite populate_exec.
    change (ec2 (cloud (z (locked w))) (calls (locked w))) with (ec2 (cloud (z w)) (calls w)).
    by rewrite Hec2.
  - rewrite orb_false_l in Hneeds.
    apply bool_decide_eq_true in Hneeds as [k Hk]. rewrite Hk.
    exists [EvInfof "AZ %s not found in zone cache." k].
    split; [|repeat constructor; by eexists].
    unfold mbind at 1, M_bind at 1. rewrite populate_exec.
    change (ec2 _ _) with (ec2 (cloud (z w)) (calls w)).
    by rewrite Hec2.
Qed.

(** A lookup that populates, when the EC2 call succeeds. *)
Lemma getZoneDetailsByNames_miss_ok zoneNames w zones :
  zoneNames <> [] -> mutex (z w) = false ->
  needs_population (entries w) zoneNames = true ->
  ec2 (cloud (z w)) (calls w) = (zones, None) ->
  let g := store_all zones (entries w) in
  exists es,
    getZoneDetailsByNames zoneNames w =
      Return (Some (found g zoneNames ∅), None)
             (unlocked (emits (not_found g zoneNames)
                (with_map (Some g) (described (emits es (locked w))))))
    /\ Forall (fun e => exists arg, e = EvInfof "AZ %s not found in zone cache." arg) es.
Proof.
  intros Hne Hfree Hneeds Hec2 g.
  take_mutex zoneNames w Hfree.
  unfold needs_population in Hneeds.
  destruct (size (entries w) =? 0)%nat eqn:Hsize.
  - exists []. rewrite emits_nil. split; [|constructor].
    unfold mbind at 1, M_bind at 1. rewrite populate_exec.
    change (ec2 (cloud (z (locked w))) (calls (locked w))) with (ec2 (cloud (z w)) (calls w)).
    rewrite Hec2. rewrite collect_requested_exec. done.
  - rewrite orb_false_l in Hneeds.
    apply bool_decide_eq_true in Hneeds as [k Hk]. rewrite Hk.
    exists [EvInfof "AZ %s not found in zone cache." k].
    split; [|repeat constructor; by eexists].
    unfold mbind at 1, M_bind at 1. rewrite populate_exec.
    change (ec2 _ _) with (ec2 (cloud (z w)) (calls w)).
    rewrite Hec2. rewrite collect_requested_exec. done.
Qed.

(** ** The pure readings *)

Lemma found_lookup g zoneNames acc k :
  found g zoneNames acc !! k =
    if bool_decide (k ∈ zoneNames)
    then match g !! k with Some d => Some d | None => acc !! k end
    else acc !! k.
Proof.
  revert acc. induction zoneNames as [|zone rest IH]; intros acc; [done|].
  simpl. destruct (decide (k = zone)) as [->|Hk].
  - rewrite bool_decide_eq_true_2 by left.
    destruct (g !! zone) as [d|] eqn:Hz; rewrite IH, ?Hz.
    + case_bool_decide; [done|]. by rewrite lookup_insert_eq.
    + by case_bool_decide.
  - assert (Hin : bool_decide (k ∈ zone :: rest) = bool_decide (k ∈ rest)).
    { apply bool_decide_ext. rewrite elem_of_cons.
      split; [intros [?|?]; done | by right]. }
    rewrite Hin.
    destruct (g !! zone) as [d|]; rewrite IH; [|done].
    by rewrite lookup_insert_ne.
Qed.

Lemma found_empty_lookup g zoneNames k :
  found g zoneNames ∅ !! k = if bool_decide (k ∈ zoneNames) then g !! k else None.
Proof.
  rewrite found_lookup, lookup_empty. case_bool_decide; [|done].
  by destruct (g !! k).
Qed.

Lemma first_missing_Some g zoneNames k :
  first_missing g zoneNames = Some k -> k ∈ zoneNames /\ g !! k = None.
Proof.
  induction zoneNames as [|zone rest IH]; [done|]. simpl.
  destruct (g !! zone) eqn:Hz.
  - intros [? ?]%IH. split; [by right | done].
  - intros [= <-]. split; [by left | done].
Qed.

Lemma first_missing_None g zoneNames :
  first_missing g zoneNames = None <-> forall k, k ∈ zoneNames -> is_Some (g !! k).
Proof.
  induction zoneNames as [|zone rest IH]; simpl.
  - split; [|done]. intros _ k Hk. by apply elem_of_nil in Hk.
  - destruct (g !! zone) eqn:Hz.
    + rewrite IH. split.
      * intros H k [->|Hk]%elem_of_cons; [by rewrite Hz | by apply H].
      * intros H k Hk. apply H. by right.
    + split; [done|]. intros H.
      destruct (H zone) as [d Hd]; [by left | congruence].
Qed.

Lemma needs_population_true g zoneNames :
  needs_population g zoneNames = true <->
  g = ∅ \/ exists k, k ∈ zoneNames /\ g !! k = None.
Proof.
  unfold needs_population.
  rewrite orb_true_iff, Nat.eqb_eq, map_size_empty_iff, bool_decide_eq_true.
  split; (intros [H|H]; [by left | right]).
  - destruct H as [k Hk]. exists k. by apply first_missing_Some.
  - destruct (first_missing g zoneNames) as [k|] eqn:Hfirst; [by eexists|].
    destruct H as (k & Hin & Hk).
    destruct (proj1 (first_missing_None g zoneNames) Hfirst k Hin). congruence.
Qed.

Lemma needs_population_false g zoneNames :
  needs_population g zoneNames = false <->
  g <> ∅ /\ forall k, k ∈ zoneNames -> is_Some (g !! k).
Proof.
  unfold needs_population.
  rewrite orb_false_iff, Nat.eqb_neq, map_size_empty_iff, bool_decide_eq_false.
  rewrite <- first_missing_None.
  split; intros [H1 H2]; (split; [done|]).
  - destruct (first_missing g zoneNames); [|done]. exfalso. apply H2. by eexists.
  - rewrite H2. by intros [? ?].
Qed.

Lemma store_all_union zones g : store_all zones g = records_of zones ∪ g.
Proof.
  unfold records_of. revert g.
  induction zones as [|zone rest IH]; intros g; simpl.
  - by rewrite (left_id_L ∅ (∪)).
  - rewrite IH. rewrite (IH (<[_:=_]> ∅)).
    rewrite <- (assoc_L (∪)). f_equal.
    by rewrite <- insert_union_l, (left_id_L ∅ (∪)).
Qed.

Lemma listed_cons k zone rest :
  listed k (zone :: rest) =
    match listed k rest with
    | Some later => Some later
    | None => if bool_decide (StringValue (ZoneName zone) = k) then Some zone else None
    end.
Proof.
  unfold listed. simpl. case_bool_decide; [|by destruct (last _)].
  by rewrite last_cons.
Qed.

Lemma store_all_lookup zones g k :
  store_all zones g !! k =
    match listed k zones with
    | Some zone => Some (details_of zone)
    | None => g !! k
    end.
Proof.
  revert g. induction zones as [|zone rest IH]; intros g; [done|].
  simpl. rewrite IH, listed_cons.
  destruct (listed k rest); [done|].
  case_bool_decide as Hk.
  - by rewrite <- Hk, lookup_insert_eq.
  - by rewrite lookup_insert_ne.
Qed.

Lemma store_all_retains zones g k :
  is_Some (g !! k) -> is_Some (store_all zones g !! k).
Proof.
  revert g. induction zones as [|zone rest IH]; intros g Hk; [done|].
  simpl. apply IH. rewrite lookup_insert. by case_decide.
Qed.

Lemma store_all_absent zones g k :
  k ∉ (fun zone => StringValue (ZoneName zone)) <$> zones ->
  store_all zones g !! k = g !! k.
Proof.
  revert g. induction zones as [|zone rest IH]; intros g Hk; [done|].
  simpl. rewrite fmap_cons in Hk. apply not_elem_of_cons in Hk as [Hne Hk].
  rewrite IH by done. by rewrite lookup_insert_ne.
Qed.

Lemma store_all_nonempty zones g : zones <> [] -> store_all zones g <> ∅.
Proof.
  destruct zones as [|zone rest]; [done|]. intros _ Hempty. simpl in Hempty.
  assert (Hk : is_Some (store_all rest (<[StringValue (ZoneName zone) := details_of zone]> g)
                          !! StringValue (ZoneName zone))).
  { apply store_all_retains. rewrite lookup_insert_eq. by eexists. }
  rewrite Hempty, lookup_empty in Hk. by destruct Hk.
Qed.

Lemma store_all_keyed_by_name zones g :
  keyed_by_name g -> keyed_by_name (store_all zones g).
Proof.
  revert g. induction zones as [|zone rest IH]; intros g Hg; [done|].
  simpl. apply IH. by apply map_Forall_insert_2.
Qed.

Lemma found_keyed_by_name g zoneNames :
  keyed_by_name g -> keyed_by_name (found g zoneNames ∅).
Proof.
  intros Hg k d. rewrite found_empty_lookup. case_bool_decide; [|done]. apply Hg.
Qed.

Lemma not_found_nil g zoneNames :
  (forall k, k ∈ zoneNames -> is_Some (g !! k)) -> not_found g zoneNames = [].
Proof.
  induction zoneNames as [|zone rest IH]; intros Hall; [done|]. simpl.
  destruct (Hall zone) as [d ->]; [by left|].
  apply IH. intros k Hk. apply Hall. by right.
Qed.

Lemma all_present_nonempty (g : gmap string zoneDetails) zoneNames :
  zoneNames <> [] -> (forall k, k ∈ zoneNames -> is_Some (g !! k)) -> g <> ∅.
Proof.
  destruct zoneNames as [|zone rest]; [done|]. intros _ Hall ->.
  destruct (Hall zone) as [d Hd]; [by left|]. by rewrite lookup_empty in Hd.
Qed.

Lemma z_released w : mutex (z w) = false -> z (unlocked (locked w)) = z w.
Proof. destruct w as [[c m zm] t]. simpl. by intros ->. Qed.

(** ** The claims *)

(** C6.  For the empty request, [getZoneDetailsByNames] returns an empty
    mapping and no error in whatever state the cache is, and leaves the
    whole world as it found it: the trace gains no event (the mutex is not
    taken, the EC2 client is not called, nothing is logged), the count of
    EC2 calls and the mutex are as before, and so is the map. *)
Theorem getZoneDetailsByNames_empty_request (w : world) :
  getZoneDetailsByNames [] w = Return (Some ∅, None) w.
Proof. reflexivity. Qed.

(** C4.  [shouldPopulateCache] always returns, without touching the cache;
    it returns true exactly when the map is empty or some requested name is
    absent from it, hence true when the map is empty, true when a requested
    name is absent, and false only when every requested name is present. *)
Theorem shouldPopulateCache_decides (zoneNames : list string) (w : world) :
  exists b w',
    shouldPopulateCache zoneNames w = Return b w' /\
    z w' = z w /\
    (b = true <->
       entries w = ∅ \/ exists k, k ∈ zoneNames /\ entries w !! k = None) /\
    (b = false -> forall k, k ∈ zoneNames -> is_Some (entries w !! k)).
Proof.
  exists (needs_population (entries w) zoneNames).
  rewrite shouldPopulateCache_exec.
  assert (Hspec := needs_population_true (entries w) zoneNames).
  assert (Hfalse := needs_population_false (entries w) zoneNames).
  unfold needs_population in *.
  destruct (size (entries w) =? 0)%nat.
  - exists w. simpl in *. repeat split; [apply Hspec.. | done].
  - rewrite orb_false_l in *.
    destruct (first_missing (entries w) zoneNames) as [k|].
    + eexists. rewrite bool_decide_eq_true_2 in * by by eexists.
      repeat split; [apply Hspec.. | done].
    + exists w. rewrite bool_decide_eq_false_2 in * by by intros [? ?].
      repeat split; [apply Hspec.. | ]. intros _. by apply Hfalse.
Qed.

(** C7.  A lookup of a non-empty request whose names the map all holds
    returns without calling the EC2 client and without changing the cache:
    the cache and its client are afterwards what they were (the map, the
    count of EC2 calls, the mutex free again), and the only events of the
    call are taking and releasing the mutex. *)
Theorem getZoneDetailsByNames_cache_hit (zoneNames : list string) (w : world) :
  zoneNames <> [] ->
  mutex (z w) = false ->
  (forall k, k ∈ zoneNames -> is_Some (entries w !! k)) ->
  exists r w',
    getZoneDetailsByNames zoneNames w = Return r w' /\
    z w' = z w /\
    calls w' = calls w /\
    trace w' = trace w ++ [EvLock; EvUnlock].
Proof.
  intros Hne Hfree Hall.
  assert (Hneeds : needs_population (entries w) zoneNames = false).
  { apply needs_population_false. split; [|done]. by eapply all_present_nonempty. }
  rewrite (getZoneDetailsByNames_hit _ _ Hne Hfree Hneeds).
  rewrite (not_found_nil _ _ Hall), emits_nil.
  do 2 eexists. split; [done|].
  assert (Hz := z_released w Hfree).
  split; [done|]. split; [unfold calls; by rewrite Hz|].
  simpl. by rewrite <- app_assoc.
Qed.

Lemma getZoneDetailsByNames_cache_hit_witness :
  exists r w',
    getZoneDetailsByNames ["us-east-1a"; "us-east-1a"] warm_world = Return r w' /\
    z w' = z warm_world /\
    calls w' = calls warm_world /\
    trace w' = trace warm_world ++ [EvLock; EvUnlock].
Proof.
  apply getZoneDetailsByNames_cache_hit.
  - done.
  - reflexivity.
  - intros k Hk. apply list_elem_of_In in Hk.
    destruct Hk as [<-|[<-|[]]]; vm_compute; by eexists.
Defined.

(** C1.  A lookup of a non-empty request on a cache whose mutex is free
    returns.  When it returns no error, the map of the cache is afterwards
    the map from before the call when no population was needed, and that
    map with the listing of the EC2 call stored over it when one was: under
    a name that a zone of the listing has, the record of the last such
    zone, and under any other name what the map held before.  The mapping
    returned then holds, for every requested name that this map holds, that
    name with the record the map has for it, and nothing else: requested
    names the map does not hold are left out, and names that were not
    requested are too.  Absent names are no failure: the lookup returns no
    error whenever no population was needed, and whenever the EC2 call it
    makes returns none. *)
Theorem getZoneDetailsByNames_returns_known (zoneNames : list string) (w : world) :
  zoneNames <> [] ->
  mutex (z w) = false ->
  exists r w',
    getZoneDetailsByNames zoneNames w = Return r w' /\
    (r.2 = None ->
       entries w' =
         (if needs_population (entries w) zoneNames
          then store_all (ec2 (cloud (z w)) (calls w)).1 (entries w)
          else entries w) /\
       (forall k, entries w' !! k =
                    if needs_population (entries w) zoneNames
                    then match listed k (ec2 (cloud (z w)) (calls w)).1 with
                         | Some zone => Some (details_of zone)
                         | None => entries w !! k
                         end
                    else entries w !! k) /\
       exists requestedZoneDetails,
         r.1 = Some requestedZoneDetails /\
         forall k, requestedZoneDetails !! k =
                     if bool_decide (k ∈ zoneNames) then entries w' !! k else None) /\
    (needs_population (entries w) zoneNames = false -> r.2 = None) /\
    ((ec2 (cloud (z w)) (calls w)).2 = None -> r.2 = None) /\
    (needs_population (entries w) zoneNames = true <->
       entries w = ∅ \/ exists k, k ∈ zoneNames /\ entries w !! k = None).
Proof.
  intros Hne Hfree.
  assert (Hiff := needs_population_true (entries w) zoneNames).
  destruct (needs_population (entries w) zoneNames) eqn:Hneeds.
  - destruct (ec2 (cloud (z w)) (calls w)) as [zones [err|]] eqn:Hec2.
    + destruct (getZoneDetailsByNames_miss_error _ _ _ _ Hne Hfree Hneeds Hec2)
        as (es & -> & _).
      do 2 eexists. split; [done|]. simpl. by split_and!.
    + destruct (getZoneDetailsByNames_miss_ok _ _ _ Hne Hfree Hneeds Hec2)
        as (es & -> & _).
      do 2 eexists. split; [done|]. simpl. split_and!; try done.
      intros _. split_and!; [done | intros k; apply store_all_lookup |].
      eexists. split; [done|]. intros k. apply found_empty_lookup.
  - rewrite (getZoneDetailsByNames_hit _ _ Hne Hfree Hneeds).
    do 2 eexists. split; [done|]. simpl. split_and!; try done.
    intros _. split_and!; [done | done |].
    eexists. split; [done|]. intros k. apply found_empty_lookup.
Qed.

Lemma getZoneDetailsByNames_returns_known_witness :
  exists r w',
    getZoneDetailsByNames ["us-east-1a"; "eu-west-9z"; "us-east-1a"] warm_world
      = Return r w' /\
    (r.2 = None ->
       entries w' =
         (if needs_population (entries warm_world)
               ["us-east-1a"; "eu-west-9z"; "us-east-1a"]
          then store_all (ec2 (cloud (z warm_world)) (calls warm_world)).1
                 (entries warm_world)
          else entries warm_world) /\
       (forall k, entries w' !! k =
                    if needs_population (entries warm_world)
                         ["us-east-1a"; "eu-west-9z"; "us-east-1a"]
                    then match listed k (ec2 (cloud (z warm_world)) (calls warm_world)).1 with
                         | Some zone => Some (details_of zone)
                         | None => entries warm_world !! k
                         end
                    else entries warm_world !! k) /\
       exists requestedZoneDetails,
         r.1 = Some requestedZoneDetails /\
         forall k, requestedZoneDetails !! k =
                     if bool_decide (k ∈ ["us-east-1a"; "eu-west-9z"; "us-east-1a"])
                     then entries w' !! k else None) /\
    (needs_population (entries warm_world)
       ["us-east-1a"; "eu-west-9z"; "us-east-1a"] = false -> r.2 = None) /\
    ((ec2 (cloud (z warm_world)) (calls warm_world)).2 = None -> r.2 = None) /\
    (needs_population (entries warm_world)
       ["us-east-1a"; "eu-west-9z"; "us-east-1a"] = true <->
       entries warm_world = ∅ \/
       exists k, k ∈ ["us-east-1a"; "eu-west-9z"; "us-east-1a"] /\
                 entries warm_world !! k = None).
Proof.
  apply getZoneDetailsByNames_returns_known.
  - done.
  - reflexivity.
Defined.

(** C2.  When a lookup has to populate (the map is empty, or a requested
    name is absent from it) and the EC2 call fails, the lookup returns the
    nil mapping and the error [populate] builds around the failure of the
    call, whose format names the operation; the map of the cache is what it
    was before the call (whatever listing came with the failure), the mutex
    is free again, and one EC2 call was made. *)
Theorem getZoneDetailsByNames_directory_failure
    (zoneNames : list string) (w : world)
    (zones : list AvailabilityZone) (err : error) :
  zoneNames <> [] ->
  mutex (z w) = false ->
  (entries w = ∅ \/ exists k, k ∈ zoneNames /\ entries w !! k = None) ->
  ec2 (cloud (z w)) (calls w) = (zones, Some err) ->
  exists w',
    getZoneDetailsByNames zoneNames w =
      Return (None, Some (Errorf "error describe availability zones: %q" err)) w' /\
    zoneNameToDetails (z w') = zoneNameToDetails (z w) /\
    mutex (z w') = false /\
    calls w' = S (calls w).
Proof.
  intros Hne Hfree Hneeds%needs_population_true Hec2.
  destruct (getZoneDetailsByNames_miss_error _ _ _ _ Hne Hfree Hneeds Hec2)
    as (es & -> & _).
  eexists. split; [done|]. by repeat split.
Qed.

Lemma getZoneDetailsByNames_directory_failure_witness :
  exists w',
    getZoneDetailsByNames ["us-east-1a"; "us-east-1-bos-1a"] warm_world_unavailable =
      Return (None, Some (Errorf "error describe availability zones: %q"
                            (ec2_error "RequestLimitExceeded"))) w' /\
    zoneNameToDetails (z w') = zoneNameToDetails (z warm_world_unavailable) /\
    mutex (z w') = false /\
    calls w' = S (calls warm_world_unavailable).
Proof.
  apply (getZoneDetailsByNames_directory_failure
           ["us-east-1a"; "us-east-1-bos-1a"] warm_world_unavailable []).
  - done.
  - reflexivity.
  - right. exists "us-east-1-bos-1a". split; [|by vm_compute].
    apply list_elem_of_In. simpl. tauto.
  - reflexivity.
Defined.

(** C3.  [populate] always returns, and it never removes an entry: every
    name the map held before the call it holds after it.  When the call
    succeeds the map is the old map with the records of the listing stored
    over it, one after the other under their names; the entries of names
    that the listing does not contain are the ones the map had. *)
Theorem populate_never_removes (w : world) :
  let zones := (ec2 (cloud (z w)) (calls w)).1 in
  exists r w',
    populate w = Return r w' /\
    dom (entries w) ⊆ dom (entries w') /\
    (r = None -> entries w' = store_all zones (entries w)) /\
    (forall k, k ∉ (fun zone => StringValue (ZoneName zone)) <$> zones ->
               entries w' !! k = entries w !! k).
Proof.
  intros zones. subst zones. rewrite populate_exec.
  destruct (ec2 (cloud (z w)) (calls w)) as [zones [err|]].
  - do 2 eexists. split; [done|]. by repeat split.
  - do 2 eexists. split; [done|].
    change (entries (with_map ?m _)) with (contents m). simpl.
    repeat split; try done.
    + intros k. rewrite !elem_of_dom. apply store_all_retains.
    + intros k. apply store_all_absent.
Qed.

(** ** Sequences of lookups *)

(** What one lookup, of any request, does to a cache whose mutex is free:
    it returns with the mutex free again and the same EC2 client, having
    made no call and left the map alone, or one call whose listing, if the
    call succeeded, it stored into the map; and the mapping it returns is
    read from the map it leaves. *)
Lemma getZoneDetailsByNames_step zoneNames w :
  mutex (z w) = false ->
  exists r w',
    getZoneDetailsByNames zoneNames w = Return r w' /\
    mutex (z w') = false /\
    ec2 (cloud (z w')) = ec2 (cloud (z w)) /\
    (calls w' = calls w /\ entries w' = entries w \/
     calls w' = S (calls w) /\
     entries w' = match ec2 (cloud (z w)) (calls w) with
                  | (zones, None) => store_all zones (entries w)
                  | (_, Some _) => entries w
                  end) /\
    (r.1 = None \/ r.1 = Some (found (entries w') zoneNames ∅)).
Proof.
  intros Hfree.
  destruct (decide (zoneNames = [])) as [->|Hne].
  { do 2 eexists. split; [reflexivity|].
    split_and!; [done | done | by left | by right]. }
  destruct (needs_population (entries w) zoneNames) eqn:Hneeds.
  - destruct (ec2 (cloud (z w)) (calls w)) as [zones [err|]] eqn:Hec2.
    + destruct (getZoneDetailsByNames_miss_error _ _ _ _ Hne Hfree Hneeds Hec2)
        as (es & -> & _).
      do 2 eexists. split; [done|].
      split_and!; [done | done | by right | by left].
    + destruct (getZoneDetailsByNames_miss_ok _ _ _ Hne Hfree Hneeds Hec2)
        as (es & -> & _).
      do 2 eexists. split; [done|].
      split_and!; [done | done | by right | by right].
  - rewrite (getZoneDetailsByNames_hit _ _ Hne Hfree Hneeds).
    do 2 eexists. split; [done|].
    split_and!; [done | done | by left | by right].
Qed.

(** A property that every lookup keeps, a sequence of lookups keeps, and
    the sequence runs to its end. *)
Lemma lookups_invariant (I : world -> Prop) :
  (forall zoneNames w, I w ->
     exists r w', getZoneDetailsByNames zoneNames w = Return r w' /\ I w') ->
  forall requests w, I w -> exists w', lookups requests w = Some w' /\ I w'.
Proof.
  intros Hstep requests. induction requests as [|zoneNames rest IH]; intros w Hw.
  - by exists w.
  - simpl. destruct (Hstep zoneNames w Hw) as (r & w1 & -> & Hw1). by apply IH.
Qed.

Lemma cache_invariant_new responses : cache_invariant responses (new_world responses).
Proof. repeat split. apply map_Forall_empty. Qed.

Lemma cache_invariant_step responses zoneNames w :
  cache_invariant responses w ->
  exists r w',
    getZoneDetailsByNames zoneNames w = Return r w' /\
    cache_invariant responses w'.
Proof.
  intros (Hfree & Hec2 & Hmerged & Hkeys).
  destruct (getZoneDetailsByNames_step zoneNames w Hfree)
    as (r & w' & Hrun & Hfree' & Hec2' & Hmap & _).
  exists r, w'. split; [done|]. split; [done|]. split; [congruence|].
  destruct Hmap as [[Hcalls Hentries]|[Hcalls Hentries]].
  - rewrite Hcalls, Hentries. by split.
  - rewrite Hcalls, Hentries, Hec2. simpl.
    destruct (responses (calls w)) as [zones [err|]]; rewrite Hmerged; split; try done.
    + by rewrite <- Hmerged.
    + apply store_all_keyed_by_name. by rewrite <- Hmerged.
Qed.

Lemma lookups_cache_invariant responses requests :
  exists w,
    lookups requests (new_world responses) = Some w /\ cache_invariant responses w.
Proof.
  apply (lookups_invariant (cache_invariant responses)).
  - intros zoneNames w. apply cache_invariant_step.
  - apply cache_invariant_new.
Qed.

Lemma last_success_merged responses n :
  match last_success responses n with
  | Some zones => records_of zones ⊆ merged responses n
  | None => merged responses n = ∅
  end.
Proof.
  induction n as [|n IH]; [done|]. simpl.
  destruct (responses n) as [zones [err|]]; [done|].
  rewrite store_all_union. apply map_union_subseteq_l.
Qed.

Lemma state_of_Empty w : state_of w = Empty <-> entries w = ∅.
Proof.
  rewrite <- entries_empty_len. unfold state_of.
  by destruct (go_len (zoneNameToDetails (z w)) =? 0)%nat.
Qed.

Lemma state_of_Populated w : state_of w = Populated <-> entries w <> ∅.
Proof.
  rewrite <- state_of_Empty. by destruct (state_of w).
Qed.

(** C10.  Every sequence of lookups on a new cache runs to its end, and in
    the state it reaches every key of the map is the name of the record
    stored under it.  A further lookup, of any request, returns from that
    state; the mapping it returns has the same property, and so has the map
    it leaves, whether it populated or not. *)
Theorem key_name_consistency
    (responses : nat -> list AvailabilityZone * option error)
    (requests : list (list string)) :
  exists w,
    lookups requests (new_world responses) = Some w /\
    keyed_by_name (entries w) /\
    forall zoneNames,
      exists r w',
        getZoneDetailsByNames zoneNames w = Return r w' /\
        keyed_by_name (contents r.1) /\
        keyed_by_name (entries w').
Proof.
  destruct (lookups_cache_invariant responses requests)
    as (w & Hrun & Hfree & Hec2 & Hmerged & Hkeys).
  exists w. split; [done|]. split; [done|]. intros zoneNames.
  destruct (cache_invariant_step responses zoneNames w) as (r & w' & Hstep & Hinv);
    [done|].
  destruct Hinv as (_ & _ & _ & Hkeys').
  exists r, w'. split; [done|]. split; [|done].
  destruct (getZoneDetailsByNames_step zoneNames w Hfree)
    as (r2 & w2 & Hstep2 & _ & _ & _ & Hres).
  rewrite Hstep in Hstep2. injection Hstep2 as <- <-.
  destruct Hres as [-> | ->]; simpl.
  - apply map_Forall_empty.
  - by apply found_keyed_by_name.
Qed.

(** C5, as the code has it.  Every sequence of lookups on a new cache runs
    to its end, and in the state it reaches the map is the successful
    listings of the EC2 calls made so far, stored one after the other:
    it is empty when no call has succeeded, and otherwise it contains every
    record of the latest successful listing, beside the records it keeps
    from earlier ones. *)
Theorem entries_merge_successful_listings
    (responses : nat -> list AvailabilityZone * option error)
    (requests : list (list string)) :
  exists w,
    lookups requests (new_world responses) = Some w /\
    entries w = merged responses (calls w) /\
    match last_listing w with
    | Some zones => records_of zones ⊆ entries w
    | None => entries w = ∅
    end.
Proof.
  destruct (lookups_cache_invariant responses requests)
    as (w & Hrun & Hfree & Hec2 & Hmerged & Hkeys).
  exists w. split; [done|]. split; [done|].
  unfold last_listing. rewrite Hec2, Hmerged. apply last_success_merged.
Qed.

(** C5, as stated, fails.  The client lists [zone_a] and [zone_b] to the
    first call and [zone_a] alone to the second.  After a lookup of
    [zone_a] and a lookup of a zone the cache does not know, the latest
    successful listing is [zone_a] alone, and the map is neither empty nor
    the records of that listing: it still holds [zone_b]. *)
Lemma entries_not_last_listing :
  exists w,
    lookups [["us-east-1a"]; ["us-east-1-bos-1a"]] (new_world lists_a_b_then_a) = Some w /\
    last_listing w = Some [zone_a] /\
    entries w <> ∅ /\
    entries w <> records_of [zone_a] /\
    entries w !! "us-east-1b" = Some (details_of zone_b).
Proof.
  eexists. split; [vm_compute; reflexivity|].
  split; [reflexivity|].
  split; [|split; [|by vm_compute]].
  - intros H. apply (f_equal (fun g => g !! "us-east-1b")) in H.
    vm_compute in H. discriminate.
  - intros H. apply (f_equal (fun g => g !! "us-east-1b")) in H.
    vm_compute in H. discriminate.
Qed.

(** C8, as the code has it.  [populate] always returns.  When the EC2 call
    fails it returns an error and leaves the map, hence the state, as it
    was.  When the call succeeds it returns no error, and the state is
    [Populated] if the listing holds a zone and otherwise the state before
    the call.  From [Populated] the state is [Populated] in every case. *)
Theorem populate_transitions (w : world) :
  let response := ec2 (cloud (z w)) (calls w) in
  exists r w',
    populate w = Return r w' /\
    (is_Some response.2 ->
       is_Some r /\
       zoneNameToDetails (z w') = zoneNameToDetails (z w) /\
       state_of w' = state_of w) /\
    (response.2 = None ->
       r = None /\
       state_of w' = match response.1 with
                     | [] => state_of w
                     | _ :: _ => Populated
                     end) /\
    (state_of w = Populated -> state_of w' = Populated).
Proof.
  intros response. subst response. rewrite populate_exec.
  destruct (ec2 (cloud (z w)) (calls w)) as [zones [err|]]; simpl.
  - do 2 eexists. split; [done|]. by split_and!.
  - do 2 eexists. split; [done|]. split_and!.
    + intros [? [=]].
    + intros _. split; [done|]. destruct zones as [|zone rest].
      * destruct (state_of w) eqn:Hs.
        -- apply state_of_Empty. by apply state_of_Empty in Hs.
        -- apply state_of_Populated. by apply state_of_Populated in Hs.
      * apply state_of_Populated. by apply store_all_nonempty.
    + rewrite !state_of_Populated. intros Hne Hempty.
      change (entries (with_map ?m _)) with (contents m) in Hempty. simpl in Hempty.
      rewrite store_all_union in Hempty.
      apply map_positive_l in Hempty as Hrec.
      rewrite Hrec, (left_id_L ∅ (∪)) in Hempty. done.
Qed.

(** C8, as stated, fails.  On a new cache, a call of [populate] to which
    the client lists no zone succeeds, and the state is [Empty] before and
    after it.  So it is for the lookup that makes that call: it returns no
    error, the state is still [Empty], and the next lookup calls the client
    again. *)
Lemma populate_empty_listing_stays_Empty :
  exists w1 w2 w3,
    state_of (new_world lists_nothing) = Empty /\
    populate (new_world lists_nothing) = Return None w1 /\
    state_of w1 = Empty /\
    getZoneDetailsByNames ["us-east-1a"] (new_world lists_nothing) =
      Return (Some ∅, None) w2 /\
    state_of w2 = Empty /\
    calls w2 = 1 /\
    getZoneDetailsByNames ["us-east-1a"] w2 = Return (Some ∅, None) w3 /\
    calls w3 = 2.
Proof.
  do 3 eexists. split; [reflexivity|]. split; [reflexivity|].
  split; [by vm_compute|]. split; [by vm_compute|].
  split; [by vm_compute|]. split; [reflexivity|].
  split; [by vm_compute|]. by vm_compute.
Qed.

(** ** The mutex around a call *)

Lemma not_found_no_mutex_event g zoneNames :
  Forall (fun e => e <> EvLock /\ e <> EvUnlock) (not_found g zoneNames).
Proof.
  induction zoneNames as [|zone rest IH]; simpl; [constructor|].
  destruct (g !! zone); [done|]. by constructor.
Qed.

Lemma infos_no_mutex_event es :
  Forall (fun e => exists arg, e = EvInfof "AZ %s not found in zone cache." arg) es ->
  Forall (fun e => e <> EvLock /\ e <> EvUnlock) es.
Proof. intros Hes. eapply Forall_impl; [done|]. by intros e [arg ->]. Qed.

(** X4.  A lookup of a non-empty request on a cache whose mutex is free
    returns with the mutex free again, on the error path as on the others:
    it takes the mutex first and releases it last, once each, and whatever
    else it does (the EC2 call, the log lines) it does in between. *)
Lemma getZoneDetailsByNames_mutex_discipline zoneNames w :
  zoneNames <> [] -> mutex (z w) = false ->
  exists r w' es,
    getZoneDetailsByNames zoneNames w = Return r w' /\
    mutex (z w') = false /\
    trace w' = trace w ++ EvLock :: es ++ [EvUnlock] /\
    Forall (fun e => e <> EvLock /\ e <> EvUnlock) es.
Proof.
  intros Hne Hfree.
  destruct (needs_population (entries w) zoneNames) eqn:Hneeds.
  - destruct (ec2 (cloud (z w)) (calls w)) as [zones [err|]] eqn:Hec2.
    + destruct (getZoneDetailsByNames_miss_error _ _ _ _ Hne Hfree Hneeds Hec2)
        as (es & -> & Hes).
      exists (None, Some (Errorf "error describe availability zones: %q" err)).
      eexists. exists (es ++ [EvDescribeAvailabilityZones]).
      split_and!; [done | done | |].
      * simpl. by rewrite <- !app_assoc.
      * apply Forall_app. split; [by apply infos_no_mutex_event | by repeat constructor].
    + destruct (getZoneDetailsByNames_miss_ok _ _ _ Hne Hfree Hneeds Hec2)
        as (es & -> & Hes).
      eexists. eexists.
      exists (es ++ EvDescribeAvailabilityZones
                 :: not_found (store_all zones (entries w)) zoneNames).
      split_and!; [done | done | |].
      * simpl. by rewrite <- !app_assoc.
      * apply Forall_app. split; [by apply infos_no_mutex_event|].
        constructor; [done | apply not_found_no_mutex_event].
  - rewrite (getZoneDetailsByNames_hit _ _ Hne Hfree Hneeds).
    eexists. eexists. exists (not_found (entries w) zoneNames).
    split_and!; [done | done | |].
    + simpl. by rewrite <- !app_assoc.
    + apply not_found_no_mutex_event.
Qed.

(** While the mutex is held, a lookup of a non-empty request does not get
    past [Lock]: it reads nothing and calls nothing. *)
Lemma getZoneDetailsByNames_mutex_held zoneNames w :
  zoneNames <> [] -> mutex (z w) = true ->
  getZoneDetailsByNames zoneNames w = Fault lock_of_locked_mutex.
Proof.
  intros Hne Hheld. unfold getZoneDetailsByNames.
  destruct zoneNames as [|zone rest]; [done|].
  change (length (_ :: _) =? 0)%nat with false. cbv iota.
  unfold mbind at 1, M_bind at 1, Lock. by rewrite Hheld.
Qed.

(** ** The cache at work *)

(** A cold cache populates once and answers from the listing. *)
Example cold_cache_populates_once :
  exists w',
    getZoneDetailsByNames ["us-east-1a"] (new_world lists_a_b) =
      Return (Some {[ "us-east-1a" := details_of zone_a ]}, None) w' /\
    calls w' = 1 /\
    entries w' = records_of [zone_a; zone_b] /\
    lookups [["us-east-1a"]] w' = Some (emits [EvLock; EvUnlock] w').
Proof. eexists. split; [by vm_compute|]. by vm_compute. Qed.

(** A zone the cache has not seen makes it ask again, once. *)
Example unknown_zone_triggers_refetch :
  exists w1 w2,
    getZoneDetailsByNames ["us-east-1a"] (new_world lists_a_then_a_c) =
      Return (Some {[ "us-east-1a" := details_of zone_a ]}, None) w1 /\
    calls w1 = 1 /\
    getZoneDetailsByNames ["us-east-1a"; "us-east-1-bos-1a"] w1 =
      Return (Some (<[ "us-east-1-bos-1a" := details_of zone_c ]>
                      {[ "us-east-1a" := details_of zone_a ]}), None) w2 /\
    calls w2 = 2 /\
    trace w2 = [EvLock; EvDescribeAvailabilityZones; EvUnlock;
                EvLock;
                EvInfof "AZ %s not found in zone cache." "us-east-1-bos-1a";
                EvDescribeAvailabilityZones;
                EvUnlock].
Proof.
  do 2 eexists. split; [by vm_compute|]. split; [by vm_compute|].
  split; [by vm_compute|]. by vm_compute.
Qed.

(** A zone the client never lists is left out, and is no error. *)
Example unknown_after_refetch_is_omitted :
  exists w',
    getZoneDetailsByNames ["eu-west-9z"] (new_world lists_a_b) =
      Return (Some ∅, None) w' /\
    calls w' = 1.
Proof. eexists. split; [by vm_compute|]. by vm_compute. Qed.

(** A failed call leaves a new cache as it was, and the next lookup asks
    again. *)
Example failure_leaves_cache_unchanged :
  exists w',
    getZoneDetailsByNames ["us-east-1a"] (new_world unavailable) =
      Return (None, Some (Errorf "error describe availability zones: %q"
                            (ec2_error "RequestLimitExceeded"))) w' /\
    zoneNameToDetails (z w') = None /\
    needs_population (entries w') ["us-east-1a"] = true.
Proof. eexists. split; [by vm_compute|]. by vm_compute. Qed.

(** * Further properties of the cache *)

(** ** What a population stores *)

Lemma listed_name k zones zone :
  listed k zones = Some zone -> zone ∈ zones /\ StringValue (ZoneName zone) = k.
Proof.
  induction zones as [|first rest IH]; [done|].
  rewrite listed_cons. destruct (listed k rest) as [later|].
  - intros [= ->]. destruct IH as [Hin Hname]; [done|]. split; [by right | done].
  - case_bool_decide; [|done]. intros [= ->]. split; [by left | done].
Qed.

Lemma listed_is_Some k zones zone :
  zone ∈ zones -> StringValue (ZoneName zone) = k -> is_Some (listed k zones).
Proof.
  induction zones as [|first rest IH]; intros Hin Hname.
  - by apply elem_of_nil in Hin.
  - rewrite listed_cons. apply elem_of_cons in Hin as [<-|Hin].
    + destruct (listed k rest); [by eexists|].
      rewrite bool_decide_eq_true_2 by done. by eexists.
    + destruct (IH Hin Hname) as [later ->]. by eexists.
Qed.

(** X1.  When the EC2 call succeeds, [populate] returns no error and leaves
    under every name the record of the last zone of the listing that has
    that name (the empty string standing for a nil name), whatever the map
    held under it before; a name that no zone of the listing has keeps the
    entry it had, or none.  So every zone of the listing has its name among
    the keys afterwards. *)
Theorem populate_stores_listing (w : world) (zones : list AvailabilityZone) :
  ec2 (cloud (z w)) (calls w) = (zones, None) ->
  exists w',
    populate w = Return None w' /\
    (forall k, entries w' !! k =
                 match listed k zones with
                 | Some zone => Some (details_of zone)
                 | None => entries w !! k
                 end) /\
    (forall zone, zone ∈ zones ->
                  is_Some (entries w' !! StringValue (ZoneName zone))).
Proof.
  intros Hec2. rewrite populate_exec, Hec2. eexists. split; [done|].
  change (entries (with_map ?m _)) with (contents m). simpl.
  split; [intros k; apply store_all_lookup|].
  intros zone Hin. rewrite store_all_lookup.
  destruct (listed_is_Some (StringValue (ZoneName zone)) zones zone) as [later ->];
    [done | done | by eexists].
Qed.

Lemma populate_stores_listing_witness :
  exists w',
    populate (new_world lists_a_twice) = Return None w' /\
    (forall k, entries w' !! k =
                 match listed k (lists_a_twice 0).1 with
                 | Some zone => Some (details_of zone)
                 | None => entries (new_world lists_a_twice) !! k
                 end) /\
    (forall zone, zone ∈ (lists_a_twice 0).1 ->
                  is_Some (entries w' !! StringValue (ZoneName zone))).
Proof.
  apply (populate_stores_listing (new_world lists_a_twice)).
  reflexivity.
Defined.

(** ** The events of a lookup *)

(** The trace of a lookup of a non-empty request, whole: the mutex, the
    note of a missing zone, the EC2 call when one is made, the warnings when
    no error is returned, the mutex. *)
Lemma getZoneDetailsByNames_trace zoneNames w :
  zoneNames <> [] -> mutex (z w) = false ->
  exists r w' infos,
    getZoneDetailsByNames zoneNames w = Return r w' /\
    Forall (fun e => exists arg, e = EvInfof "AZ %s not found in zone cache." arg) infos /\
    trace w' =
      trace w ++ EvLock :: infos
        ++ (if needs_population (entries w) zoneNames
            then [EvDescribeAvailabilityZones] else [])
        ++ (match r.2 with
            | Some _ => []
            | None => not_found (entries w') zoneNames
            end)
        ++ [EvUnlock] /\
    calls w' = (if needs_population (entries w) zoneNames
                then S (calls w) else calls w).
Proof.
  intros Hne Hfree.
  destruct (needs_population (entries w) zoneNames) eqn:Hneeds.
  - destruct (ec2 (cloud (z w)) (calls w)) as [zones [err|]] eqn:Hec2.
    + destruct (getZoneDetailsByNames_miss_error _ _ _ _ Hne Hfree Hneeds Hec2)
        as (es & -> & Hes).
      eexists. eexists. exists es. split_and!; [done | done | | done].
      simpl. by rewrite <- !app_assoc.
    + destruct (getZoneDetailsByNames_miss_ok _ _ _ Hne Hfree Hneeds Hec2)
        as (es & -> & Hes).
      eexists. eexists. exists es. split_and!; [done | done | | done].
      simpl. by rewrite <- !app_assoc.
  - rewrite (getZoneDetailsByNames_hit _ _ Hne Hfree Hneeds).
    eexists. eexists. exists []. split_and!; [done | done | | done].
    simpl. by rewrite <- !app_assoc.
Qed.

Lemma infos_filter_describe es :
  Forall (fun e => exists arg, e = EvInfof "AZ %s not found in zone cache." arg) es ->
  List.filter is_describe es = [].
Proof. induction 1 as [|e es [arg ->] _ IH]; [done|]. by simpl. Qed.

Lemma infos_filter_warning es :
  Forall (fun e => exists arg, e = EvInfof "AZ %s not found in zone cache." arg) es ->
  List.filter is_warning es = [].
Proof. induction 1 as [|e es [arg ->] _ IH]; [done|]. by simpl. Qed.

Lemma not_found_filter_describe g zoneNames :
  List.filter is_describe (not_found g zoneNames) = [].
Proof.
  induction zoneNames as [|zone rest IH]; [done|]. simpl.
  by destruct (g !! zone).
Qed.

Lemma not_found_filter_warning g zoneNames :
  List.filter is_warning (not_found g zoneNames) = not_found g zoneNames.
Proof.
  induction zoneNames as [|zone rest IH]; [done|]. simpl.
  destruct (g !! zone); [done|]. simpl. by rewrite IH.
Qed.

Lemma not_found_absent g zoneNames :
  not_found g zoneNames =
    EvWarningf "Could not find zone %s" <$> List.filter (absent g) zoneNames.
Proof.
  induction zoneNames as [|zone rest IH]; [done|]. simpl. unfold absent at 1.
  destruct (g !! zone); [done|]. simpl. by rewrite IH.
Qed.

(** X2.  A lookup calls the EC2 client at most once, and never again after
    a failure: on a cache whose mutex is free it returns, having made one
    call of [DescribeAvailabilityZones] when the request is not empty and
    the map is empty or lacks a requested name, and none otherwise.  The
    count of calls and the events of the lookup agree on it. *)
Theorem getZoneDetailsByNames_calls_once (zoneNames : list string) (w : world) :
  mutex (z w) = false ->
  exists r w' es,
    getZoneDetailsByNames zoneNames w = Return r w' /\
    trace w' = trace w ++ es /\
    calls w' = (if populates zoneNames w then S (calls w) else calls w) /\
    length (List.filter is_describe es) = (if populates zoneNames w then 1 else 0).
Proof.
  intros Hfree.
  destruct (decide (zoneNames = [])) as [->|Hne].
  { eexists. exists w, []. split; [reflexivity|]. by rewrite app_nil_r. }
  destruct (getZoneDetailsByNames_trace zoneNames w Hne Hfree)
    as (r & w' & infos & Hrun & Hinfos & Htrace & Hcalls).
  assert (Hpop : populates zoneNames w = needs_population (entries w) zoneNames).
  { by destruct zoneNames. }
  rewrite Hpop. exists r, w'. eexists. split; [done|]. split; [done|]. split; [done|].
  simpl. rewrite !List.filter_app, (infos_filter_describe _ Hinfos). simpl.
  assert (List.filter is_describe
            (match r.2 with
             | Some _ => []
             | None => not_found (entries w') zoneNames
             end) = []) as ->.
  { destruct (r.2); [done | apply not_found_filter_describe]. }
  by destruct (needs_population (entries w) zoneNames).
Qed.

Lemma getZoneDetailsByNames_calls_once_witness :
  exists r w' es,
    getZoneDetailsByNames ["us-east-1a"; "us-east-1-bos-1a"] warm_world_unavailable
      = Return r w' /\
    trace w' = trace warm_world_unavailable ++ es /\
    calls w' = (if populates ["us-east-1a"; "us-east-1-bos-1a"] warm_world_unavailable
                then S (calls warm_world_unavailable)
                else calls warm_world_unavailable) /\
    length (List.filter is_describe es) =
      (if populates ["us-east-1a"; "us-east-1-bos-1a"] warm_world_unavailable
       then 1 else 0).
Proof.
  apply getZoneDetailsByNames_calls_once. reflexivity.
Defined.

(** X3.  A lookup that returns no error warns once for every place of the
    request whose name the map does not hold when the lookup ends, in the
    order of the request and with the name as the argument of the line; a
    lookup that returns an error warns of nothing. *)
Theorem getZoneDetailsByNames_warns_of_unknown (zoneNames : list string) (w : world) :
  zoneNames <> [] ->
  mutex (z w) = false ->
  exists r w' es,
    getZoneDetailsByNames zoneNames w = Return r w' /\
    trace w' = trace w ++ es /\
    List.filter is_warning es =
      match r.2 with
      | Some _ => []
      | None => EvWarningf "Could not find zone %s"
                  <$> List.filter (absent (entries w')) zoneNames
      end.
Proof.
  intros Hne Hfree.
  destruct (getZoneDetailsByNames_trace zoneNames w Hne Hfree)
    as (r & w' & infos & Hrun & Hinfos & Htrace & Hcalls).
  exists r, w'. eexists. split; [done|]. split; [done|].
  simpl. rewrite !List.filter_app, (infos_filter_warning _ Hinfos). simpl.
  assert (List.filter is_warning
            (if needs_population (entries w) zoneNames
             then [EvDescribeAvailabilityZones] else []) = []) as ->.
  { by destruct (needs_population (entries w) zoneNames). }
  simpl. rewrite app_nil_r. destruct (r.2); [done|].
  by rewrite not_found_filter_warning, not_found_absent.
Qed.

Lemma getZoneDetailsByNames_warns_of_unknown_witness :
  exists r w' es,
    getZoneDetailsByNames ["eu-west-9z"; "us-east-1a"; "eu-west-9z"] (new_world lists_a_b)
      = Return r w' /\
    trace w' = trace (new_world lists_a_b) ++ es /\
    List.filter is_warning es =
      match r.2 with
      | Some _ => []
      | None => EvWarningf "Could not find zone %s"
                  <$> List.filter (absent (entries w'))
                        ["eu-west-9z"; "us-east-1a"; "eu-west-9z"]
      end.
Proof.
  apply getZoneDetailsByNames_warns_of_unknown.
  - done.
  - reflexivity.
Defined.

Lemma getZoneDetailsByNames_mutex_discipline_witness :
  exists r w' es,
    getZoneDetailsByNames ["us-east-1a"] (new_world unavailable) = Return r w' /\
    mutex (z w') = false /\
    trace w' = trace (new_world unavailable) ++ EvLock :: es ++ [EvUnlock] /\
    Forall (fun e => e <> EvLock /\ e <> EvUnlock) es.
Proof.
  apply getZoneDetailsByNames_mutex_discipline.
  - done.
  - reflexivity.
Defined.

(** ** One lookup after another *)

Lemma found_ext g zoneNames1 zoneNames2 :
  (forall k, k ∈ zoneNames1 <-> k ∈ zoneNames2) ->
  found g zoneNames1 ∅ = found g zoneNames2 ∅.
Proof.
  intros Hsame. apply map_eq. intros k. rewrite !found_empty_lookup.
  by rewrite (bool_decide_ext _ _ (Hsame k)).
Qed.

Lemma needs_population_ext g zoneNames1 zoneNames2 :
  (forall k, k ∈ zoneNames1 <-> k ∈ zoneNames2) ->
  needs_population g zoneNames1 = needs_population g zoneNames2.
Proof.
  intros Hsame.
  destruct (needs_population g zoneNames2) eqn:H2.
  - apply needs_population_true. apply needs_population_true in H2.
    destruct H2 as [?|(k & Hk & ?)]; [by left | right].
    exists k. by rewrite Hsame.
  - apply needs_population_false. apply needs_population_false in H2.
    destruct H2 as [? Hall]. split; [done|]. intros k Hk. apply Hall. by apply Hsame.
Qed.

(** X5.  What a lookup returns and what it leaves in the cache depend on
    the names of the request only, not on their order or on how often each
    stands in it: two requests with the same names, looked up in the same
    state, return the same mapping and error and leave the same cache. *)
Theorem getZoneDetailsByNames_names_only
    (zoneNames1 zoneNames2 : list string) (w : world) :
  mutex (z w) = false ->
  (forall k, k ∈ zoneNames1 <-> k ∈ zoneNames2) ->
  exists r w1 w2,
    getZoneDetailsByNames zoneNames1 w = Return r w1 /\
    getZoneDetailsByNames zoneNames2 w = Return r w2 /\
    z w1 = z w2.
Proof.
  intros Hfree Hsame.
  destruct (decide (zoneNames1 = [])) as [->|Hne1].
  { destruct zoneNames2 as [|k rest].
    - by exists (Some ∅, None), w, w.
    - exfalso. eapply elem_of_nil, Hsame. by left. }
  assert (Hne2 : zoneNames2 <> []).
  { intros ->. destruct zoneNames1 as [|k rest]; [done|].
    eapply elem_of_nil, Hsame. by left. }
  assert (Hneeds := needs_population_ext (entries w) _ _ Hsame).
  destruct (needs_population (entries w) zoneNames2) eqn:Hneeds2.
  - destruct (ec2 (cloud (z w)) (calls w)) as [zones [err|]] eqn:Hec2.
    + destruct (getZoneDetailsByNames_miss_error _ _ _ _ Hne1 Hfree Hneeds Hec2)
        as (es1 & -> & _).
      destruct (getZoneDetailsByNames_miss_error _ _ _ _ Hne2 Hfree Hneeds2 Hec2)
        as (es2 & -> & _).
      by do 3 eexists.
    + destruct (getZoneDetailsByNames_miss_ok _ _ _ Hne1 Hfree Hneeds Hec2)
        as (es1 & -> & _).
      destruct (getZoneDetailsByNames_miss_ok _ _ _ Hne2 Hfree Hneeds2 Hec2)
        as (es2 & -> & _).
      rewrite (found_ext _ _ _ Hsame). by do 3 eexists.
  - rewrite (getZoneDetailsByNames_hit _ _ Hne1 Hfree Hneeds).
    rewrite (getZoneDetailsByNames_hit _ _ Hne2 Hfree Hneeds2).
    rewrite (found_ext _ _ _ Hsame). by do 3 eexists.
Qed.

Lemma getZoneDetailsByNames_names_only_witness :
  exists r w1 w2,
    getZoneDetailsByNames ["us-east-1b"; "us-east-1a"; "us-east-1b"] (new_world lists_a_b)
      = Return r w1 /\
    getZoneDetailsByNames ["us-east-1a"; "us-east-1b"] (new_world lists_a_b)
      = Return r w2 /\
    z w1 = z w2.
Proof.
  apply getZoneDetailsByNames_names_only.
  - reflexivity.
  - intros k. rewrite !elem_of_cons, !elem_of_nil. tauto.
Defined.

(** X6.  A lookup that found every name of its request is answered from the
    cache when it is made again: the second lookup returns the same mapping
    and no error, calls the EC2 client no more, and leaves the cache as the
    first left it. *)
Theorem getZoneDetailsByNames_again
    (zoneNames : list string) (w w1 : world)
    (requestedZoneDetails : gmap string zoneDetails) :
  zoneNames <> [] ->
  mutex (z w) = false ->
  getZoneDetailsByNames zoneNames w = Return (Some requestedZoneDetails, None) w1 ->
  (forall k, k ∈ zoneNames -> is_Some (requestedZoneDetails !! k)) ->
  exists w2,
    getZoneDetailsByNames zoneNames w1 = Return (Some requestedZoneDetails, None) w2 /\
    calls w2 = calls w1 /\
    z w2 = z w1.
Proof.
  intros Hne Hfree Hrun Hall.
  destruct (getZoneDetailsByNames_step zoneNames w Hfree)
    as (r & w' & Hstep & Hfree1 & _ & _ & Hres).
  rewrite Hrun in Hstep. injection Hstep as <- <-.
  destruct Hres as [[=]|[= Hres]].
  assert (Hpresent : forall k, k ∈ zoneNames -> is_Some (entries w1 !! k)).
  { intros k Hk. specialize (Hall k Hk).
    rewrite Hres, found_empty_lookup, bool_decide_eq_true_2 in Hall; done. }
  assert (Hneeds : needs_population (entries w1) zoneNames = false).
  { apply needs_population_false. split; [|done]. by eapply all_present_nonempty. }
  rewrite (getZoneDetailsByNames_hit _ _ Hne Hfree1 Hneeds), <- Hres.
  rewrite (not_found_nil _ _ Hpresent), emits_nil.
  eexists. split; [done|].
  assert (Hz := z_released w1 Hfree1). split; [|done].
  unfold calls. by rewrite Hz.
Qed.

Lemma getZoneDetailsByNames_again_witness :
  exists w2,
    getZoneDetailsByNames ["us-east-1a"]
      (unlocked (with_map (Some (records_of [zone_a; zone_b]))
                   (described (locked (new_world lists_a_b))))) =
      Return (Some {[ "us-east-1a" := details_of zone_a ]}, None) w2 /\
    calls w2 = 1 /\
    z w2 = z (unlocked (with_map (Some (records_of [zone_a; zone_b]))
                          (described (locked (new_world lists_a_b))))).
Proof.
  apply (getZoneDetailsByNames_again ["us-east-1a"] (new_world lists_a_b)).
  - done.
  - reflexivity.
  - by vm_compute.
  - intros k Hk. apply list_elem_of_In in Hk.
    destruct Hk as [<-|[]]. vm_compute. by eexists.
Defined.

(** The lookups of one request, made [n] times over, in front of a client
    that never lists the zone [k]. *)
Lemma lookups_unlisted responses k zoneNames n w :
  k ∈ zoneNames ->
  (forall i zones, responses i = (zones, None) -> listed k zones = None) ->
  mutex (z w) = false ->
  ec2 (cloud (z w)) = responses ->
  entries w !! k = None ->
  exists w',
    lookups (replicate n zoneNames) w = Some w' /\
    calls w' = calls w + n /\
    entries w' !! k = None.
Proof.
  intros Hin Hunlisted. revert w. induction n as [|n IH]; intros w Hfree Hec2 Hk.
  { exists w. split; [done|]. split; [lia | done]. }
  assert (Hne : zoneNames <> []) by (intros ->; by apply elem_of_nil in Hin).
  assert (Hneeds : needs_population (entries w) zoneNames = true).
  { apply needs_population_true. right. by exists k. }
  destruct (getZoneDetailsByNames_step zoneNames w Hfree)
    as (r & w1 & Hrun & Hfree1 & Hec2' & Hmap & _).
  destruct (getZoneDetailsByNames_trace zoneNames w Hne Hfree)
    as (r' & w1' & infos & Hrun' & _ & _ & Hcalls).
  rewrite Hrun in Hrun'. injection Hrun' as <- <-. rewrite Hneeds in Hcalls.
  destruct Hmap as [[Hsame _]|[_ Hentries]]; [lia|].
  assert (Hk1 : entries w1 !! k = None).
  { rewrite Hentries, Hec2.
    destruct (responses (calls w)) as [zones [err|]] eqn:Hresp; [done|].
    by rewrite store_all_lookup, (Hunlisted _ _ Hresp). }
  destruct (IH w1 Hfree1) as (w' & Hrest & Hcalls' & Hk'); [congruence | done |].
  exists w'. simpl. rewrite Hrun. split; [done|]. split; [lia | done].
Qed.

(** X7.  The cache keeps no record of a zone being unknown.  In front of a
    client none of whose successful listings has the zone [k], every lookup
    of a request that names [k] calls the client: [n] such lookups on a new
    cache run to their end with [n] calls made, and the map still lacks
    [k]. *)
Theorem unlisted_zone_calls_every_time
    (responses : nat -> list AvailabilityZone * option error)
    (k : string) (zoneNames : list string) (n : nat) :
  k ∈ zoneNames ->
  (forall i zones, responses i = (zones, None) -> listed k zones = None) ->
  exists w,
    lookups (replicate n zoneNames) (new_world responses) = Some w /\
    calls w = n /\
    entries w !! k = None.
Proof.
  intros Hin Hunlisted.
  destruct (lookups_unlisted responses k zoneNames n (new_world responses))
    as (w & Hrun & Hcalls & Hk); try done.
  by exists w.
Qed.

Lemma unlisted_zone_calls_every_time_witness :
  exists w,
    lookups (replicate 3 ["us-east-1a"; "eu-west-9z"]) (new_world lists_a_b) = Some w /\
    calls w = 3 /\
    entries w !! "eu-west-9z" = None.
Proof.
  apply (unlisted_zone_calls_every_time lists_a_b "eu-west-9z"
           ["us-east-1a"; "eu-west-9z"] 3).
  - apply list_elem_of_In. simpl. tauto.
  - intros i zones [= <-]. reflexivity.
Defined.

(** X8.  Lookups never lose a zone and call the client at most once each.
    From a cache whose mutex is free, every sequence of lookups runs to its
    end and leaves the mutex free; every name the map held before the
    sequence it holds after it, and the calls of the EC2 client made during
    the sequence are no more than its lookups. *)
Theorem lookups_keep_zones (requests : list (list string)) (w : world) :
  mutex (z w) = false ->
  exists w',
    lookups requests w = Some w' /\
    mutex (z w') = false /\
    dom (entries w) ⊆ dom (entries w') /\
    calls w <= calls w' <= calls w + length requests.
Proof.
  revert w. induction requests as [|zoneNames rest IH]; intros w Hfree.
  { exists w. split; [done|]. split; [done|]. split; [done | lia]. }
  destruct (getZoneDetailsByNames_step zoneNames w Hfree)
    as (r & w1 & Hrun & Hfree1 & _ & Hmap & _).
  destruct (IH w1 Hfree1) as (w' & Hrest & Hfree' & Hdom & Hcalls).
  exists w'. simpl. rewrite Hrun. split; [done|]. split; [done|].
  destruct Hmap as [[Hsame Hentries]|[Hmore Hentries]].
  - rewrite <- Hentries. split; [done | lia].
  - split; [|lia]. etrans; [|done]. rewrite Hentries.
    destruct (ec2 (cloud (z w)) (calls w)) as [zones [err|]]; [done|].
    intros k. rewrite !elem_of_dom. apply store_all_retains.
Qed.

Lemma lookups_keep_zones_witness :
  exists w',
    lookups [["us-east-1a"]; []; ["us-east-1-bos-1a"]; ["us-east-1b"]]
      (new_world lists_a_b_then_a) = Some w' /\
    mutex (z w') = false /\
    dom (entries (new_world lists_a_b_then_a)) ⊆ dom (entries w') /\
    calls (new_world lists_a_b_then_a) <= calls w'
      <= calls (new_world lists_a_b_then_a) + 4.
Proof.
  apply (lookups_keep_zones
           [["us-east-1a"]; []; ["us-east-1-bos-1a"]; ["us-east-1b"]]).
  reflexivity.
Defined.

(** X9.  A failure of the EC2 call is not remembered.  When a lookup that
    has to populate meets a failing call and the next call of the client
    succeeds, the same lookup made again calls the client again and returns
    no error: the map is then the map from before the failure with the new
    listing stored over it, and the mapping returned holds the requested
    names that this map holds, with its records. *)
Theorem getZoneDetailsByNames_retries_after_failure
    (zoneNames : list string) (w : world)
    (zones1 zones2 : list AvailabilityZone) (err : error) :
  zoneNames <> [] ->
  mutex (z w) = false ->
  (entries w = ∅ \/ exists k, k ∈ zoneNames /\ entries w !! k = None) ->
  ec2 (cloud (z w)) (calls w) = (zones1, Some err) ->
  ec2 (cloud (z w)) (S (calls w)) = (zones2, None) ->
  exists w1 requestedZoneDetails w2,
    getZoneDetailsByNames zoneNames w =
      Return (None, Some (Errorf "error describe availability zones: %q" err)) w1 /\
    getZoneDetailsByNames zoneNames w1 = Return (Some requestedZoneDetails, None) w2 /\
    calls w2 = S (S (calls w)) /\
    entries w2 = store_all zones2 (entries w) /\
    forall k, requestedZoneDetails !! k =
                if bool_decide (k ∈ zoneNames) then entries w2 !! k else None.
Proof.
  intros Hne Hfree Hneeds%needs_population_true Hec2 Hnext.
  destruct (getZoneDetailsByNames_miss_error _ _ _ _ Hne Hfree Hneeds Hec2)
    as (es & -> & _).
  set (w1 := unlocked (described (emits es (locked w)))).
  assert (Hfree1 : mutex (z w1) = false) by done.
  assert (Hneeds1 : needs_population (entries w1) zoneNames = true) by done.
  assert (Hec2' : ec2 (cloud (z w1)) (calls w1) = (zones2, None)) by done.
  destruct (getZoneDetailsByNames_miss_ok _ _ _ Hne Hfree1 Hneeds1 Hec2')
    as (es' & Hrun & _).
  exists w1. do 2 eexists. split; [done|]. split; [exact Hrun|].
  split; [done|]. split; [done|].
  intros k. apply found_empty_lookup.
Qed.

Lemma getZoneDetailsByNames_retries_after_failure_witness :
  exists w1 requestedZoneDetails w2,
    getZoneDetailsByNames ["us-east-1b"; "eu-west-9z"] (new_world unavailable_then_lists_a_b) =
      Return (None, Some (Errorf "error describe availability zones: %q"
                            (ec2_error "RequestLimitExceeded"))) w1 /\
    getZoneDetailsByNames ["us-east-1b"; "eu-west-9z"] w1 =
      Return (Some requestedZoneDetails, None) w2 /\
    calls w2 = 2 /\
    entries w2 = store_all [zone_a; zone_b] (entries (new_world unavailable_then_lists_a_b)) /\
    forall k, requestedZoneDetails !! k =
                if bool_decide (k ∈ ["us-east-1b"; "eu-west-9z"])
                then entries w2 !! k else None.
Proof.
  apply (getZoneDetailsByNames_retries_after_failure
           ["us-east-1b"; "eu-west-9z"] (new_world unavailable_then_lists_a_b)
           [] [zone_a; zone_b]).
  - done.
  - reflexivity.
  - by left.
  - reflexivity.
  - reflexivity.
Defined.

(** X10.  The first lookup of a cache answers from the listing alone.  On a
    cache whose map is empty, when the EC2 call succeeds, a lookup of a
    non-empty request returns no error and a mapping that holds, for every
    requested name that a zone of the listing has, the record of the last
    such zone of the listing, and nothing for any other name. *)
Theorem getZoneDetailsByNames_cold
    (zoneNames : list string) (w : world) (zones : list AvailabilityZone) :
  zoneNames <> [] ->
  mutex (z w) = false ->
  entries w = ∅ ->
  ec2 (cloud (z w)) (calls w) = (zones, None) ->
  exists requestedZoneDetails w',
    getZoneDetailsByNames zoneNames w = Return (Some requestedZoneDetails, None) w' /\
    forall k, requestedZoneDetails !! k =
                if bool_decide (k ∈ zoneNames)
                then details_of <$> listed k zones
                else None.
Proof.
  intros Hne Hfree Hempty Hec2.
  assert (Hneeds : needs_population (entries w) zoneNames = true).
  { apply needs_population_true. by left. }
  destruct (getZoneDetailsByNames_miss_ok _ _ _ Hne Hfree Hneeds Hec2)
    as (es & -> & _).
  do 2 eexists. split; [done|]. intros k.
  rewrite found_empty_lookup. case_bool_decide; [|done].
  rewrite store_all_lookup, Hempty, lookup_empty.
  by destruct (listed k zones).
Qed.

Lemma getZoneDetailsByNames_cold_witness :
  exists requestedZoneDetails w',
    getZoneDetailsByNames ["us-east-1a"; "eu-west-9z"] (new_world lists_a_twice) =
      Return (Some requestedZoneDetails, None) w' /\
    forall k, requestedZoneDetails !! k =
                if bool_decide (k ∈ ["us-east-1a"; "eu-west-9z"])
                then details_of <$> listed k (lists_a_twice 0).1
                else None.
Proof.
  apply (getZoneDetailsByNames_cold ["us-east-1a"; "eu-west-9z"] (new_world lists_a_twice)).
  - done.
  - reflexivity.
  - reflexivity.
  - reflexivity.
Defined.
